(** * RStodoApp: the todo store and the notification bridge of [App.tsx]

    A shallow embedding of the state handlers of the [App] component
    ([addTodo], [toggleTodo], [deleteTodo]) and of the asynchronous
    notification code ([displayNotification], [requestUserPermission],
    [registerDeviceForMessaging]), followed by the properties of the
    specification that concern them. *)

From Stdlib Require Import Ascii String.
From stdpp Require Import base decidable option list numbers strings pretty.

(** ** JavaScript strings

    A JavaScript string is a sequence of 16-bit code units; a string is
    modelled as the list of its code units. *)

Definition code_unit := N.
Definition jsstring := list code_unit.

(** A literal of the source, written as an ASCII string. *)
Definition lit (s : string) : jsstring :=
  N_of_ascii <$> list_ascii_of_string s.
Global Arguments lit : simpl never.

(** [WhiteSpace] and [LineTerminator] of ECMAScript: the code units that
    [String.prototype.trim] strips. *)
Definition whiteSpace : list code_unit :=
  [ 0x0009; 0x000B; 0x000C; 0x0020; 0x00A0; 0x1680;
    0x2000; 0x2001; 0x2002; 0x2003; 0x2004; 0x2005; 0x2006; 0x2007;
    0x2008; 0x2009; 0x200A; 0x202F; 0x205F; 0x3000; 0xFEFF ]%N.

Definition lineTerminator : list code_unit :=
  [ 0x000A; 0x000D; 0x2028; 0x2029 ]%N.

Definition isTrimmed (c : code_unit) : bool :=
  bool_decide (c ∈ whiteSpace ++ lineTerminator).

Fixpoint trimStart (s : jsstring) : jsstring :=
  match s with
  | [] => []
  | c :: s' => if isTrimmed c then trimStart s' else s
  end.

Definition trimEnd (s : jsstring) : jsstring :=
  reverse (trimStart (reverse s)).

(** [s.trim()] *)
Definition trim (s : jsstring) : jsstring := trimEnd (trimStart s).

(** [n.toString()] for an integral number: [Date.now()] is a whole number
    of milliseconds, far below 1e21 in magnitude, so its string is its
    decimal numeral, with a leading minus sign when negative. *)
Definition toString (n : Z) : jsstring := lit (pretty n).

(** ** The todo store *)

(** [type Todo = { id: string; text: string; done: boolean }] *)
Record Todo : Type := mkTodo {
  id : jsstring;
  text : jsstring;
  done : bool;
}.

Global Instance Todo_eq_dec : EqDecision Todo.
Proof. solve_decision. Defined.

(** The two [useState] cells of [App]. *)
Record AppState : Type := mkState {
  todos : list Todo;
  input : jsstring;
}.

Global Instance AppState_eq_dec : EqDecision AppState.
Proof. solve_decision. Defined.

(** [useState<Todo[]>([])] and [useState('')] *)
Definition initialState : AppState := {| todos := []; input := [] |}.

(** [onChangeText={setInput}] *)
Definition setInput (s : jsstring) (st : AppState) : AppState :=
  {| todos := todos st; input := s |}.

(** [addTodo]; [now] is what [Date.now()] returns during the call. *)
Definition addTodo (now : Z) (st : AppState) : AppState :=
  if decide (trim (input st) = []) then st
  else
    {| todos :=
         todos st ++ [ {| id := toString now; text := input st; done := false |} ];
       input := [] |}.

(** [{ ...todo, done: !todo.done }] *)
Definition flipDone (todo : Todo) : Todo :=
  {| id := id todo; text := text todo; done := negb (done todo) |}.

(** [todo.id === id ? { ...todo, done: !todo.done } : todo] *)
Definition toggleOne (i : jsstring) (todo : Todo) : Todo :=
  if decide (id todo = i) then flipDone todo else todo.

(** [toggleTodo] *)
Definition toggleTodo (i : jsstring) (st : AppState) : AppState :=
  {| todos := toggleOne i <$> todos st; input := input st |}.

(** [deleteTodo] *)
Definition deleteTodo (i : jsstring) (st : AppState) : AppState :=
  {| todos := filter (λ todo, id todo ≠ i) (todos st); input := input st |}.

(** What the user can do on the screen. Each handler runs against the
    state of the render it was created in, and the component re-renders
    between two events. *)
Inductive Action : Type :=
  | ChangeText (s : jsstring)
  | PressAdd (now : Z)
  | PressToggle (i : jsstring)
  | PressDelete (i : jsstring).

Definition step (st : AppState) (a : Action) : AppState :=
  match a with
  | ChangeText s => setInput s st
  | PressAdd now => addTodo now st
  | PressToggle i => toggleTodo i st
  | PressDelete i => deleteTodo i st
  end.

Definition run (acts : list Action) : AppState := foldl step initialState acts.

(** ** The notification bridge *)

(** [messaging.AuthorizationStatus] *)
Module AuthorizationStatus.
Inductive t : Type :=
  | NOT_DETERMINED | DENIED | AUTHORIZED | PROVISIONAL | EPHEMERAL.
Global Instance eq_dec : EqDecision t.
Proof. solve_decision. Defined.
End AuthorizationStatus.

(** [PermissionsAndroid.RESULTS] *)
Module RESULTS.
Inductive t : Type := GRANTED | DENIED | NEVER_ASK_AGAIN.
Global Instance eq_dec : EqDecision t.
Proof. solve_decision. Defined.
End RESULTS.

(** [PermissionsAndroid.PERMISSIONS.POST_NOTIFICATIONS] *)
Definition POST_NOTIFICATIONS : jsstring :=
  lit "android.permission.POST_NOTIFICATIONS".

(** [Platform]: the operating system and, on Android, the API level. *)
Inductive PlatformOS : Type := ios | android | macos | windows | web.

Record Platform : Type := mkPlatform {
  OS : PlatformOS;
  Version : Z;
}.

(** [FirebaseMessagingTypes.RemoteMessage], with the fields the code reads:
    [notification], [notification.title] and [notification.body] are all
    optional. *)
Module RemoteMessage.
Record Notification : Type := mkNotification {
  title : option jsstring;
  body : option jsstring;
}.
Record t : Type := mk {
  notification : option Notification;
}.
End RemoteMessage.

(** The arguments of the Notifee calls. *)
Module Notifee.
Inductive AndroidImportance : Type := NONE | MIN | LOW | DEFAULT | HIGH.

Record AndroidChannel : Type := mkChannel {
  id : jsstring;
  name : jsstring;
  importance : AndroidImportance;
}.

Record PressAction : Type := mkPressAction { pressActionId : jsstring }.

Record NotificationAndroid : Type := mkAndroid {
  channelId : jsstring;
  smallIcon : jsstring;
  pressAction : PressAction;
}.

Record NotificationIOS : Type := mkIOS { sound : jsstring }.

Record Notification : Type := mkNotification {
  title : jsstring;
  body : jsstring;
  android : NotificationAndroid;
  ios : NotificationIOS;
}.
End Notifee.

(** A thrown value. *)
Record Error : Type := mkError { message : jsstring }.

(** How a call completes: it returns a value or it throws. *)
Inductive completion (A : Type) : Type :=
  | Normal (a : A)
  | Throw (e : Error).
Arguments Normal {A} a.
Arguments Throw {A} e.

(** The calls into the messaging, permission and notification services,
    indexed by the type of what they resolve to. *)
Inductive ext : Type → Type :=
  | notifee_requestPermission : ext unit
  | notifee_createChannel (channel : Notifee.AndroidChannel) : ext jsstring
  | notifee_displayNotification (n : Notifee.Notification) : ext jsstring
  | messaging_requestPermission : ext AuthorizationStatus.t
  | PermissionsAndroid_request (permission : jsstring) : ext RESULTS.t
  | messaging_registerDeviceForRemoteMessages : ext unit
  | messaging_getToken : ext jsstring.

(** What is written to the console. *)
Inductive console : Type := console_log | console_error.

Inductive logged : Type :=
  | LogString (s : jsstring)
  | LogError (e : Error)
  | LogMessage (m : RemoteMessage.t).

(** What a run leaves behind: the calls it made, each with its
    completion, and the lines it wrote to the console. *)
Inductive event : Type :=
  | Called {X : Type} (e : ext X) (r : completion X)
  | Logged (c : console) (label : jsstring) (v : logged).

Definition history := list event.

(** The services: how a call completes, given all that happened before. *)
Definition world := history → ∀ X, ext X → completion X.

(** An asynchronous function body: run in a world after a history, it
    extends the history and completes. The [await]s are sequential. *)
Definition Async (A : Type) : Type := world → history → history * completion A.

Global Instance Async_ret : MRet Async := λ A a w h, (h, Normal a).

Global Instance Async_bind : MBind Async := λ A B f m w h,
  match m w h with
  | (h', Normal a) => f a w h'
  | (h', Throw e) => (h', Throw e)
  end.

(** [await e] *)
Definition call {X} (e : ext X) : Async X := λ w h,
  let r := w h X e in (h ++ [Called e r], r).

(** [console.log(label, v)] and [console.error(label, v)] *)
Definition log (c : console) (label : jsstring) (v : logged) : Async unit :=
  λ w h, (h ++ [Logged c label v], Normal ()).

(** [try { body } catch (error) { handler }] *)
Definition try_catch {A} (body : Async A) (handler : Error → Async A) : Async A :=
  λ w h,
  match body w h with
  | (h', Normal a) => (h', Normal a)
  | (h', Throw e) => handler e w h'
  end.

(** [v || fallback] for an optional string [v]: [undefined] and the empty
    string are the falsy values. *)
Definition or_else (v : option jsstring) (fallback : jsstring) : jsstring :=
  match v with
  | Some s => if decide (s = []) then fallback else s
  | None => fallback
  end.

(** The channel that [displayNotification] creates. *)
Definition defaultChannel : Notifee.AndroidChannel :=
  {| Notifee.id := lit "default";
     Notifee.name := lit "Default Channel";
     Notifee.importance := Notifee.HIGH |}.

(** [displayNotification] *)
Definition displayNotification (remoteMessage : RemoteMessage.t) : Async unit :=
  _ ← call notifee_requestPermission;
  channelId ← call (notifee_createChannel defaultChannel);
  _ ← call (notifee_displayNotification
    {| Notifee.title :=
         or_else (RemoteMessage.notification remoteMessage ≫= RemoteMessage.title)
                 (lit "New Notification");
       Notifee.body :=
         or_else (RemoteMessage.notification remoteMessage ≫= RemoteMessage.body)
                 (lit "You have a new message");
       Notifee.android :=
         {| Notifee.channelId := channelId;
            Notifee.smallIcon := lit "ic_launcher";
            Notifee.pressAction := {| Notifee.pressActionId := lit "default" |} |};
       Notifee.ios := {| Notifee.sound := lit "default" |} |});
  mret ().

(** [registerDeviceForMessaging] *)
Definition registerDeviceForMessaging : Async unit :=
  try_catch
    (_ ← call messaging_registerDeviceForRemoteMessages;
     token ← call messaging_getToken;
     log console_log (lit "FCM Token:") (LogString token))
    (λ error, log console_error (lit "Error registering device:") (LogError error)).

(** [requestUserPermission] *)
Definition requestUserPermission (P : Platform) : Async unit :=
  try_catch
    (match OS P with
     | ios =>
         authStatus ← call messaging_requestPermission;
         let enabled :=
           bool_decide (authStatus = AuthorizationStatus.AUTHORIZED)
           || bool_decide (authStatus = AuthorizationStatus.PROVISIONAL) in
         if enabled then registerDeviceForMessaging else mret ()
     | android =>
         if decide (33 ≤ Version P)%Z then
           granted ← call (PermissionsAndroid_request POST_NOTIFICATIONS);
           if decide (granted = RESULTS.GRANTED)
           then registerDeviceForMessaging
           else mret ()
         else registerDeviceForMessaging
     | _ => mret ()
     end)
    (λ error, log console_error (lit "Error requesting permission:") (LogError error)).

(** The foreground listener and the background handler. *)
Definition onMessage (remoteMessage : RemoteMessage.t) : Async unit :=
  _ ← log console_log (lit "Foreground notification:") (LogMessage remoteMessage);
  displayNotification remoteMessage.

Definition backgroundMessageHandler (remoteMessage : RemoteMessage.t) : Async unit :=
  _ ← log console_log (lit "Background notification:") (LogMessage remoteMessage);
  displayNotification remoteMessage.

(** *** Reading a history *)

(** The notifications handed to [notifee.displayNotification]. *)
Definition displayed (h : history) : list Notifee.Notification :=
  omap (λ ev, match ev with
              | Called (notifee_displayNotification n) _ => Some n
              | _ => None
              end) h.

(** Is the event a device-registration call? *)
Definition is_registration (ev : event) : bool :=
  match ev with
  | Called messaging_registerDeviceForRemoteMessages _ => true
  | _ => false
  end.

(** A world in which every call succeeds: permission is granted, the
    channel identifier is the one asked for. *)
Definition grantingWorld : world := λ _ X e,
  match e in ext X return completion X with
  | notifee_requestPermission => Normal ()
  | notifee_createChannel c => Normal (Notifee.id c)
  | notifee_displayNotification _ => Normal (lit "n1")
  | messaging_requestPermission => Normal AuthorizationStatus.AUTHORIZED
  | PermissionsAndroid_request _ => Normal RESULTS.GRANTED
  | messaging_registerDeviceForRemoteMessages => Normal ()
  | messaging_getToken => Normal (lit "token")
  end.

(** A world in which the user refuses every permission request. *)
Definition denyingWorld : world := λ h X e,
  match e in ext X return completion X with
  | messaging_requestPermission => Normal AuthorizationStatus.DENIED
  | PermissionsAndroid_request _ => Normal RESULTS.DENIED
  | e' => grantingWorld h _ e'
  end.

(** A world in which every call throws. *)
Definition failingWorld : world := λ _ X _, Throw {| message := lit "unavailable" |}.

(** ** Reading a run of the store *)

(** What [Date.now()] returned at each press of the Add button. *)
Definition clockReadings (acts : list Action) : list Z :=
  omap (λ a, match a with PressAdd now => Some now | _ => None end) acts.

(** The identity of a Note: the two fields that never change. *)
Definition note (todo : Todo) : jsstring * jsstring := (id todo, text todo).

(** A run that also keeps the insertion log: whatever a press of the Add
    button put into the list beyond the entries that were there. *)
Definition step_logged (sl : AppState * list Todo) (a : Action)
  : AppState * list Todo :=
  let st' := step sl.1 a in
  (st',
   sl.2 ++ match a with
           | PressAdd _ => drop (length (todos sl.1)) (todos st')
           | _ => []
           end).

Definition run_logged (acts : list Action) : AppState * list Todo :=
  foldl step_logged (initialState, []) acts.

Definition insertion_log (acts : list Action) : list Todo := (run_logged acts).2.

(** Two notes added while the clock shows the same millisecond. *)
Definition sameMillisecond : list Action :=
  [ ChangeText (lit "Buy milk"); PressAdd 1700000000000;
    ChangeText (lit "Walk dog"); PressAdd 1700000000000 ].

(** The runs of the permission flow in which permission is not obtained:
    the request resolves to a status that does not enable messaging, or the
    request throws. [h] is the history at the time of the call. *)
Inductive permission_refused (P : Platform) (w : world) (h : history) : Prop :=
  | ios_denied (status : AuthorizationStatus.t) :
      OS P = ios →
      w h _ messaging_requestPermission = Normal status →
      status ≠ AuthorizationStatus.AUTHORIZED →
      status ≠ AuthorizationStatus.PROVISIONAL →
      permission_refused P w h
  | ios_throws (e : Error) :
      OS P = ios →
      w h _ messaging_requestPermission = Throw e →
      permission_refused P w h
  | android_denied (result : RESULTS.t) :
      OS P = android → (33 ≤ Version P)%Z →
      w h _ (PermissionsAndroid_request POST_NOTIFICATIONS) = Normal result →
      result ≠ RESULTS.GRANTED →
      permission_refused P w h
  | android_throws (e : Error) :
      OS P = android → (33 ≤ Version P)%Z →
      w h _ (PermissionsAndroid_request POST_NOTIFICATIONS) = Throw e →
      permission_refused P w h.

(** Does the permission request of the platform throw? *)
Definition request_throws (P : Platform) (w : world) (h : history) (e : Error) : Prop :=
  match OS P with
  | ios => w h _ messaging_requestPermission = Throw e
  | android =>
      (33 ≤ Version P)%Z
      ∧ w h _ (PermissionsAndroid_request POST_NOTIFICATIONS) = Throw e
  | _ => False
  end.

(** A message whose title and body are both present, and empty. *)
Definition emptyFieldsMessage : RemoteMessage.t :=
  {| RemoteMessage.notification :=
       Some {| RemoteMessage.title := Some (lit "");
               RemoteMessage.body := Some (lit "") |} |}.

(** A message with a title and no body. *)
Definition titleOnlyMessage : RemoteMessage.t :=
  {| RemoteMessage.notification :=
       Some {| RemoteMessage.title := Some (lit "Hello");
               RemoteMessage.body := None |} |}.

(** ** The screen *)

(** [useColorScheme()]: ['light'], ['dark'], or nothing. *)
Inductive ColorScheme : Type := light | dark.

Global Instance ColorScheme_eq_dec : EqDecision ColorScheme.
Proof. solve_decision. Defined.

(** The [theme] object of [App]. *)
Module Theme.
Record t : Type := mk {
  background : jsstring;
  card : jsstring;
  text : jsstring;
  placeholder : jsstring;
  border : jsstring;
  primary : jsstring;
  danger : jsstring;
}.
End Theme.

Definition theme (scheme : option ColorScheme) : Theme.t :=
  let isDark := bool_decide (scheme = Some dark) in
  {| Theme.background := if isDark then lit "#121212" else lit "#f5f5f5";
     Theme.card := if isDark then lit "#1e1e1e" else lit "#fff";
     Theme.text := if isDark then lit "#f5f5f5" else lit "#121212";
     Theme.placeholder := if isDark then lit "#aaa" else lit "#555";
     Theme.border := if isDark then lit "#333" else lit "#ddd";
     Theme.primary := lit "#4CAF50";
     Theme.danger := lit "#FF5252" |}.

(** What [renderItem] draws for one item: the card, the text with its colour
    and decoration, and the two touchable regions, each with the handler call
    its press makes. *)
Module Row.
Record t : Type := mk {
  backgroundColor : jsstring;
  borderColor : jsstring;
  label : jsstring;
  color : jsstring;
  lineThrough : bool;
  onPressText : Action;
  deleteColor : jsstring;
  onPressDelete : Action;
}.
End Row.

(** [renderItem] *)
Definition renderItem (th : Theme.t) (item : Todo) : Row.t :=
  {| Row.backgroundColor := Theme.card th;
     Row.borderColor := Theme.border th;
     Row.label := text item;
     Row.color := if done item then Theme.placeholder th else Theme.text th;
     Row.lineThrough := done item;
     Row.onPressText := PressToggle (id item);
     Row.deleteColor := Theme.danger th;
     Row.onPressDelete := PressDelete (id item) |}.

(** The rows of the [FlatList], in the order of [todos]. *)
Definition rows (scheme : option ColorScheme) (st : AppState) : list Row.t :=
  renderItem (theme scheme) <$> todos st.

(** An input that [trim] empties: every code unit is white space or a line
    terminator. *)
Definition blank (s : jsstring) : Prop := Forall (λ c, isTrimmed c = true) s.

(** Does the run contain a press on the text of a row? *)
Definition is_toggle (a : Action) : bool :=
  match a with PressToggle _ => true | _ => false end.

(** ** Reading a run of the permission flow *)

(** Is the event a line written to the console? *)
Definition is_logged (ev : event) : bool :=
  match ev with
  | Logged _ _ _ => true
  | Called _ _ => false
  end.

(** Is the event a permission request? *)
Definition is_permission_request (ev : event) : bool :=
  match ev with
  | Called messaging_requestPermission _ => true
  | Called (PermissionsAndroid_request _) _ => true
  | _ => false
  end.

(** The runs of the permission flow in which messaging is enabled: the iOS
    request resolves to AUTHORIZED or PROVISIONAL, the Android request
    resolves to GRANTED, or the Android version is below 33 and nothing is
    requested. *)
Inductive permission_obtained (P : Platform) (w : world) (h : history) : Prop :=
  | ios_enabled (status : AuthorizationStatus.t) :
      OS P = ios →
      w h _ messaging_requestPermission = Normal status →
      status = AuthorizationStatus.AUTHORIZED
      ∨ status = AuthorizationStatus.PROVISIONAL →
      permission_obtained P w h
  | android_granted :
      OS P = android → (33 ≤ Version P)%Z →
      w h _ (PermissionsAndroid_request POST_NOTIFICATIONS) = Normal RESULTS.GRANTED →
      permission_obtained P w h
  | android_before_33 :
      OS P = android → (Version P < 33)%Z →
      permission_obtained P w h.

(** The permission request that a run of the flow makes first, if any, with
    its completion. *)
Definition permission_events (P : Platform) (w : world) (h : history) : history :=
  match OS P with
  | ios => [ Called messaging_requestPermission (w h _ messaging_requestPermission) ]
  | android =>
      if decide (33 ≤ Version P)%Z
      then [ Called (PermissionsAndroid_request POST_NOTIFICATIONS)
               (w h _ (PermissionsAndroid_request POST_NOTIFICATIONS)) ]
      else []
  | _ => []
  end.


(** * Properties *)

(** ** Strings *)

Global Instance N_of_ascii_inj : Inj (=) (=) N_of_ascii.
Proof.
  intros a b Hab. rewrite <- (ascii_N_embedding a), <- (ascii_N_embedding b).
  by rewrite Hab.
Qed.

Global Instance list_ascii_of_string_inj : Inj (=) (=) list_ascii_of_string.
Proof.
  intros a b Hab.
  rewrite <- (string_of_list_ascii_of_string a), <- (string_of_list_ascii_of_string b).
  by rewrite Hab.
Qed.

Global Instance lit_inj : Inj (=) (=) lit.
Proof. unfold lit. intros a b Hab. by apply (inj _), (inj _) in Hab. Qed.

(** Distinct clock readings give distinct identifiers. *)
Global Instance toString_inj : Inj (=) (=) toString.
Proof. unfold toString. intros a b Hab. by apply (inj lit), (inj pretty) in Hab. Qed.

Example trim_empty : trim (lit "") = [].
Proof. reflexivity. Qed.

Example trim_spaces : trim (lit "   ") = [].
Proof. vm_compute. reflexivity. Qed.

Example trim_inner : trim (lit "  Buy milk ") = lit "Buy milk".
Proof. vm_compute. reflexivity. Qed.

Example toString_now : toString 1700000000000 = lit "1700000000000".
Proof. vm_compute. reflexivity. Qed.

Example toString_negative : toString (-42) = lit "-42".
Proof. vm_compute. reflexivity. Qed.

(** ** The handlers, one at a time *)

Lemma toggleOne_id i todo : id (toggleOne i todo) = id todo.
Proof. unfold toggleOne. by case_decide. Qed.

Lemma toggleOne_text i todo : text (toggleOne i todo) = text todo.
Proof. unfold toggleOne. by case_decide. Qed.

Lemma toggleOne_note i todo : note (toggleOne i todo) = note todo.
Proof. unfold note. by rewrite toggleOne_id, toggleOne_text. Qed.

Lemma toggleOne_other i todo : id todo ≠ i → toggleOne i todo = todo.
Proof. unfold toggleOne. by case_decide. Qed.

Lemma toggleOne_twice i todo : toggleOne i (toggleOne i todo) = todo.
Proof.
  unfold toggleOne, flipDone. destruct todo as [j t d]; simpl.
  repeat (case_decide; simpl in * ); try done.
  by rewrite negb_involutive.
Qed.

Lemma toggleTodo_ids i st : id <$> todos (toggleTodo i st) = id <$> todos st.
Proof.
  simpl. rewrite <- list_fmap_compose. apply list_fmap_ext.
  intros _ todo _. apply toggleOne_id.
Qed.

Lemma toggleTodo_notes i st : note <$> todos (toggleTodo i st) = note <$> todos st.
Proof.
  simpl. rewrite <- list_fmap_compose. apply list_fmap_ext.
  intros _ todo _. apply toggleOne_note.
Qed.

Lemma toggleTodo_absent i st : i ∉ id <$> todos st → toggleTodo i st = st.
Proof.
  destruct st as [l s]. unfold toggleTodo; simpl. intros Hi. f_equal.
  induction l as [|todo l IH]; [done|].
  rewrite fmap_cons, not_elem_of_cons in Hi. destruct Hi as [Hne Hi].
  rewrite fmap_cons, IH by done. by rewrite toggleOne_other.
Qed.

Lemma deleteTodo_elem i st todo :
  todo ∈ todos (deleteTodo i st) ↔ todo ∈ todos st ∧ id todo ≠ i.
Proof. simpl. rewrite list_elem_of_filter. tauto. Qed.

Lemma deleteTodo_sublist i st : todos (deleteTodo i st) `sublist_of` todos st.
Proof. apply sublist_filter. Qed.

Lemma deleteTodo_absent i st : i ∉ id <$> todos st → deleteTodo i st = st.
Proof.
  destruct st as [l s]. unfold deleteTodo; simpl. intros Hi. f_equal.
  induction l as [|todo l IH]; [done|].
  rewrite fmap_cons, not_elem_of_cons in Hi. destruct Hi as [Hne Hi].
  rewrite filter_cons_True by done. by rewrite IH.
Qed.

Lemma deleteTodo_gone i st : i ∉ id <$> todos (deleteTodo i st).
Proof.
  rewrite list_elem_of_fmap. intros (todo & -> & Hin).
  apply deleteTodo_elem in Hin. by destruct Hin.
Qed.

Lemma addTodo_cases now st :
  (trim (input st) = [] ∧ addTodo now st = st)
  ∨ (trim (input st) ≠ []
     ∧ addTodo now st =
         {| todos := todos st ++ [ mkTodo (toString now) (input st) false ];
            input := [] |}).
Proof. unfold addTodo. case_decide; [by left | by right]. Qed.

(** ** Runs of the store *)

Lemma run_snoc acts a : run (acts ++ [a]) = step (run acts) a.
Proof. unfold run. by rewrite foldl_app. Qed.

Lemma run_logged_snoc acts a :
  run_logged (acts ++ [a]) = step_logged (run_logged acts) a.
Proof. unfold run_logged. by rewrite foldl_app. Qed.

Lemma run_logged_state acts : (run_logged acts).1 = run acts.
Proof.
  induction acts as [|a acts IH] using rev_ind; [done|].
  by rewrite run_logged_snoc, run_snoc, <- IH.
Qed.

Lemma clockReadings_snoc acts a :
  clockReadings (acts ++ [a]) =
  clockReadings acts ++ match a with PressAdd now => [now] | _ => [] end.
Proof. unfold clockReadings. rewrite omap_app. by destruct a. Qed.

(** Every identifier in the list is the numeral of a clock reading taken by
    an earlier press of the Add button. *)
Lemma ids_from_clock acts i :
  i ∈ id <$> todos (run acts) → ∃ now, now ∈ clockReadings acts ∧ i = toString now.
Proof.
  revert i. induction acts as [|a acts IH] using rev_ind; intros i.
  - simpl. by intros ?%elem_of_nil.
  - rewrite run_snoc, clockReadings_snoc. destruct a as [s|now|j|j]; simpl step.
    + simpl. rewrite app_nil_r. apply IH.
    + destruct (addTodo_cases now (run acts)) as [[_ ->]|[_ ->]]; simpl.
      * intros (n & Hn & ->)%IH. exists n. split; [|done]. apply elem_of_app. by left.
      * rewrite fmap_app, elem_of_app. intros [Hi|Hi].
        -- apply IH in Hi as (n & Hn & ->). exists n. split; [|done].
           apply elem_of_app. by left.
        -- apply list_elem_of_singleton in Hi as ->. exists now. split; [|done].
           apply elem_of_app. right. by apply list_elem_of_singleton.
    + rewrite toggleTodo_ids, app_nil_r. apply IH.
    + rewrite app_nil_r. intros (todo & -> & Hin)%list_elem_of_fmap.
      apply deleteTodo_elem in Hin as [Hin _]. apply IH.
      apply list_elem_of_fmap. eauto.
Qed.

(** *** C1 *)

(** C1, as stated, fails: two notes added while [Date.now()] returns the
    same millisecond get the same [id]. *)
Lemma ids_not_unique_same_millisecond :
  id <$> todos (run sameMillisecond) = [ lit "1700000000000"; lit "1700000000000" ]
  ∧ ¬ NoDup (id <$> todos (run sameMillisecond)).
Proof.
  assert (H : id <$> todos (run sameMillisecond) = [ lit "1700000000000"; lit "1700000000000" ])
    by (vm_compute; reflexivity).
  split; [exact H|]. rewrite H. intros Hnd. apply NoDup_cons in Hnd as [Hnd _].
  apply Hnd. by apply list_elem_of_singleton.
Qed.

(** C1, amended: in every state reached from the empty list by any sequence
    of add, toggle and delete, the [id] fields are pairwise distinct,
    provided the clock readings taken by the adds of the sequence are
    pairwise distinct; each [id] is the decimal numeral of the reading
    taken when its Note was created. *)
Theorem ids_unique (acts : list Action) :
  NoDup (clockReadings acts) →
  NoDup (id <$> todos (run acts))
  ∧ ∀ i, i ∈ id <$> todos (run acts) →
         ∃ now, now ∈ clockReadings acts ∧ i = toString now.
Proof.
  intros Hclock. split; [|intros i; apply ids_from_clock].
  induction acts as [|a acts IH] using rev_ind.
  - simpl. constructor.
  - rewrite clockReadings_snoc in Hclock. apply NoDup_app in Hclock as (Hacts & Hfresh & _).
    specialize (IH Hacts). rewrite run_snoc. destruct a as [s|now|j|j]; simpl step.
    + exact IH.
    + destruct (addTodo_cases now (run acts)) as [[_ ->]|[_ ->]]; [exact IH|]. simpl.
      rewrite fmap_app. apply NoDup_app. split; [exact IH|]. split.
      * intros i Hi Hnew. apply list_elem_of_singleton in Hnew as ->.
        apply ids_from_clock in Hi as (n & Hn & Heq). apply (inj toString) in Heq as <-.
        apply (Hfresh now Hn). by apply list_elem_of_singleton.
      * apply NoDup_singleton.
    + by rewrite toggleTodo_ids.
    + simpl. apply (sublist_NoDup _ (id <$> todos (run acts))); [exact IH|].
      apply fmap_sublist, sublist_filter.
Qed.

Lemma ids_unique_witness :
  NoDup (id <$> todos (run [ ChangeText (lit "Buy milk"); PressAdd 1700000000000;
                             ChangeText (lit "Walk dog"); PressAdd 1700000004321 ]))
  ∧ ∀ i, i ∈ id <$> todos (run [ ChangeText (lit "Buy milk"); PressAdd 1700000000000;
                                 ChangeText (lit "Walk dog"); PressAdd 1700000004321 ]) →
         ∃ now, now ∈ clockReadings
                        [ ChangeText (lit "Buy milk"); PressAdd 1700000000000;
                          ChangeText (lit "Walk dog"); PressAdd 1700000004321 ]
                ∧ i = toString now.
Proof.
  apply (ids_unique [ ChangeText (lit "Buy milk"); PressAdd 1700000000000;
                      ChangeText (lit "Walk dog"); PressAdd 1700000004321 ]).
  apply (bool_decide_unpack _). vm_compute. reflexivity.
Defined.

(** *** C2 *)

(** C2: when the pending input [s] is not blank, [addTodo] lengthens the list
    by exactly one, the new entry is appended at the end with [done = false]
    and [text = s], and the pending input is cleared. *)
Theorem addTodo_nonblank (s : jsstring) (st : AppState) (now : Z) :
  input st = s →
  trim s ≠ [] →
  ∃ n, todos (addTodo now st) = todos st ++ [n]
       ∧ text n = s ∧ done n = false ∧ id n = toString now
       ∧ length (todos (addTodo now st)) = S (length (todos st))
       ∧ input (addTodo now st) = [].
Proof.
  intros <- Hs. destruct (addTodo_cases now st) as [[Hblank _]|[_ ->]]; [done|].
  eexists. simpl. repeat split. rewrite length_app. simpl. lia.
Qed.

Lemma addTodo_nonblank_witness :
  ∃ n, todos (addTodo 1700000000000 {| todos := []; input := lit "Buy milk" |})
       = todos {| todos := []; input := lit "Buy milk" |} ++ [n]
       ∧ text n = lit "Buy milk" ∧ done n = false ∧ id n = toString 1700000000000
       ∧ length (todos (addTodo 1700000000000 {| todos := []; input := lit "Buy milk" |}))
         = S (length (todos {| todos := []; input := lit "Buy milk" |}))
       ∧ input (addTodo 1700000000000 {| todos := []; input := lit "Buy milk" |}) = [].
Proof.
  apply (addTodo_nonblank (lit "Buy milk") {| todos := []; input := lit "Buy milk" |}
           1700000000000).
  - reflexivity.
  - vm_compute. discriminate.
Defined.

(** *** C3 *)

(** C3: when the pending input is blank (its trimmed form is empty, as for
    the empty string and for three spaces), [addTodo] leaves the list as it
    was; it does not touch the pending input either. *)
Theorem addTodo_blank (s : jsstring) (st : AppState) (now : Z) :
  input st = s →
  trim s = [] →
  todos (addTodo now st) = todos st ∧ addTodo now st = st.
Proof.
  intros <- Hs. destruct (addTodo_cases now st) as [[_ ->]|[Hne _]]; done.
Qed.

Lemma addTodo_blank_witness :
  todos (addTodo 7 {| todos := [ mkTodo (lit "5") (lit "a") true ]; input := lit "   " |})
  = todos {| todos := [ mkTodo (lit "5") (lit "a") true ]; input := lit "   " |}
  ∧ addTodo 7 {| todos := [ mkTodo (lit "5") (lit "a") true ]; input := lit "   " |}
    = {| todos := [ mkTodo (lit "5") (lit "a") true ]; input := lit "   " |}.
Proof.
  apply (addTodo_blank (lit "   ")
           {| todos := [ mkTodo (lit "5") (lit "a") true ]; input := lit "   " |} 7).
  - reflexivity.
  - vm_compute. reflexivity.
Defined.

Example addTodo_empty_string now l :
  todos (addTodo now {| todos := l; input := lit "" |}) = l.
Proof. reflexivity. Qed.

(** ** Lists with pairwise-distinct identifiers *)

(** With distinct identifiers, an identifier that occurs picks out one
    entry, and no entry before or after it carries the same identifier. *)
Lemma unique_entry (l : list Todo) (i : jsstring) :
  NoDup (id <$> l) → i ∈ id <$> l →
  ∃ l1 todo l2, l = l1 ++ todo :: l2 ∧ id todo = i
                ∧ (i ∉ id <$> l1) ∧ (i ∉ id <$> l2).
Proof.
  intros Hnd (todo & -> & Hin)%list_elem_of_fmap.
  apply list_elem_of_split in Hin as (l1 & l2 & ->).
  exists l1, todo, l2. rewrite fmap_app, fmap_cons in Hnd.
  apply NoDup_app in Hnd as (_ & Hl1 & [Hl2 _]%NoDup_cons).
  repeat split; [|done]. intros Hi. apply (Hl1 _ Hi). by left.
Qed.

Lemma toggle_absent (l : list Todo) (i : jsstring) :
  i ∉ id <$> l → toggleOne i <$> l = l.
Proof.
  intros Hi. pose proof (toggleTodo_absent i {| todos := l; input := [] |} Hi) as H.
  by injection H.
Qed.

Lemma delete_absent (l : list Todo) (i : jsstring) :
  i ∉ id <$> l → filter (λ todo, id todo ≠ i) l = l.
Proof.
  intros Hi. pose proof (deleteTodo_absent i {| todos := l; input := [] |} Hi) as H.
  by injection H.
Qed.

Lemma delete_length (l : list Todo) (i : jsstring) :
  length (filter (λ todo, id todo ≠ i) l) + length (filter (λ todo, id todo = i) l)
  = length l.
Proof.
  induction l as [|todo l IH]; [done|].
  rewrite !filter_cons. destruct (decide (id todo = i)) as [Heq|Hne].
  - rewrite decide_False by (intros H; by apply H). simpl. lia.
  - rewrite decide_True by done. simpl. lia.
Qed.

(** *** C4 *)

(** C4, as stated, fails on a list the store can reach: when two entries
    carry the same [id], one toggle flips the [done] flag of both. *)
Lemma toggleTodo_flips_both_same_id :
  id <$> todos (run sameMillisecond) = [ lit "1700000000000"; lit "1700000000000" ]
  ∧ done <$> todos (run sameMillisecond) = [ false; false ]
  ∧ done <$> todos (toggleTodo (lit "1700000000000") (run sameMillisecond)) = [ true; true ].
Proof. vm_compute. done. Qed.

(** C4, amended: [toggleTodo i] keeps the length of the list and the [id]
    and [text] of every entry in place, flips the [done] flag of every entry
    whose [id] is [i] and leaves every other entry as it was; when the
    identifiers of the list are pairwise distinct and [i] occurs, exactly one
    entry is flipped; when [i] does not occur, nothing changes. *)
Theorem toggleTodo_spec (st : AppState) (i : jsstring) :
  length (todos (toggleTodo i st)) = length (todos st)
  ∧ note <$> todos (toggleTodo i st) = note <$> todos st
  ∧ (∀ k todo, todos st !! k = Some todo → id todo = i →
       todos (toggleTodo i st) !! k = Some (flipDone todo))
  ∧ (∀ k todo, todos st !! k = Some todo → id todo ≠ i →
       todos (toggleTodo i st) !! k = Some todo)
  ∧ (NoDup (id <$> todos st) → i ∈ id <$> todos st →
       ∃ k todo, todos st !! k = Some todo ∧ id todo = i
                 ∧ todos (toggleTodo i st) = <[k := flipDone todo]> (todos st))
  ∧ (i ∉ id <$> todos st → toggleTodo i st = st)
  ∧ input (toggleTodo i st) = input st.
Proof.
  split; [apply length_fmap|]. split; [apply toggleTodo_notes|].
  split; [|split; [|split; [|split; [apply toggleTodo_absent|done]]]].
  - intros k todo Hk Hi. simpl. rewrite list_lookup_fmap, Hk. simpl.
    unfold toggleOne. by rewrite decide_True.
  - intros k todo Hk Hi. simpl. rewrite list_lookup_fmap, Hk. simpl.
    by rewrite toggleOne_other.
  - intros Hnd Hi.
    destruct (unique_entry _ _ Hnd Hi) as (l1 & todo & l2 & Hl & Hid & Hl1 & Hl2).
    exists (length l1), todo. rewrite Hl. split; [|split; [done|]].
    + by rewrite list_lookup_middle.
    + simpl. rewrite Hl, fmap_app, fmap_cons, !toggle_absent by done.
      unfold toggleOne. rewrite decide_True by done.
      rewrite insert_app_r_alt by lia. by rewrite Nat.sub_diag.
Qed.

Lemma toggleTodo_spec_witness :
  ∃ k todo,
    [ mkTodo (lit "1") (lit "Buy milk") false; mkTodo (lit "2") (lit "Walk dog") false ]
      !! k = Some todo
    ∧ id todo = lit "2"
    ∧ todos (toggleTodo (lit "2")
        {| todos := [ mkTodo (lit "1") (lit "Buy milk") false;
                      mkTodo (lit "2") (lit "Walk dog") false ];
           input := [] |})
      = <[k := flipDone todo]>
          [ mkTodo (lit "1") (lit "Buy milk") false;
            mkTodo (lit "2") (lit "Walk dog") false ].
Proof.
  destruct (toggleTodo_spec
              {| todos := [ mkTodo (lit "1") (lit "Buy milk") false;
                            mkTodo (lit "2") (lit "Walk dog") false ];
                 input := [] |} (lit "2")) as (_ & _ & _ & _ & Hone & _).
  apply Hone.
  - apply (bool_decide_unpack _). vm_compute. reflexivity.
  - apply (bool_decide_unpack _). vm_compute. reflexivity.
Defined.

(** *** C9 *)

(** C9: toggling the same [id] twice in succession gives back the original
    state, for every list, whether or not an entry carries that [id]. *)
Theorem toggleTodo_involutive (st : AppState) (i : jsstring) :
  toggleTodo i (toggleTodo i st) = st.
Proof.
  destruct st as [l s]. unfold toggleTodo; simpl. f_equal.
  rewrite <- list_fmap_compose. rewrite <- (list_fmap_id l) at 2.
  apply list_fmap_ext. intros _ todo _. apply toggleOne_twice.
Qed.

(** *** C5 *)

(** C5, as stated, fails on a list the store can reach: when two entries
    carry the same [id], one delete removes both, not exactly one. *)
Lemma deleteTodo_removes_both_same_id :
  id <$> todos (run sameMillisecond) = [ lit "1700000000000"; lit "1700000000000" ]
  ∧ length (todos (run sameMillisecond)) = 2
  ∧ todos (deleteTodo (lit "1700000000000") (run sameMillisecond)) = [].
Proof. vm_compute. done. Qed.

(** A subsequence of [l] whose elements all satisfy [P] is a subsequence of
    the elements of [l] that satisfy [P]. *)
Lemma sublist_into_filter {A} (P : A → Prop) `{∀ x, Decision (P x)} (r l : list A) :
  r `sublist_of` l → Forall P r → r `sublist_of` filter P l.
Proof.
  induction 1 as [|x r l Hrl IH|x r l Hrl IH]; intros Hr.
  - done.
  - apply Forall_cons in Hr as [Hx Hr]. rewrite filter_cons_True by done.
    by apply sublist_skip, IH.
  - rewrite filter_cons. case_decide; [apply sublist_cons|]; by apply IH.
Qed.

Lemma sublist_same_length {A} (r l : list A) :
  r `sublist_of` l → length r = length l → r = l.
Proof.
  induction 1 as [|x r l Hrl IH|x r l Hrl IH]; simpl; intros Hlen.
  - done.
  - f_equal. apply IH. lia.
  - apply sublist_length in Hrl. lia.
Qed.

(** The entries that a delete keeps, in their order, are determined: a
    subsequence of the list that holds no entry with the identifier and as
    many entries as the list has without it. *)
Lemma delete_determined (l r : list Todo) (i : jsstring) :
  r `sublist_of` l →
  Forall (λ todo, id todo ≠ i) r →
  length r + length (filter (λ todo, id todo = i) l) = length l →
  r = filter (λ todo, id todo ≠ i) l.
Proof.
  intros Hsub Hr Hlen. apply sublist_same_length.
  - by apply sublist_into_filter.
  - pose proof (delete_length l i). lia.
Qed.

(** C5, amended: [deleteTodo i] removes every entry whose [id] is [i] and
    keeps the others, in their order: the result is the one subsequence of
    the list that holds exactly the entries with another [id]. That is the
    list without exactly one entry when the identifiers of the list are
    pairwise distinct and [i] occurs, and the list itself when [i] does not
    occur; in every case the list does not get longer. *)
Theorem deleteTodo_spec (st : AppState) (i : jsstring) :
  length (todos (deleteTodo i st))
    + length (filter (λ todo, id todo = i) (todos st)) = length (todos st)
  ∧ (∀ todo, todo ∈ todos (deleteTodo i st) ↔ todo ∈ todos st ∧ id todo ≠ i)
  ∧ (NoDup (id <$> todos st) → i ∈ id <$> todos st →
       ∃ l1 todo l2, todos st = l1 ++ todo :: l2 ∧ id todo = i
                     ∧ todos (deleteTodo i st) = l1 ++ l2)
  ∧ (i ∉ id <$> todos st → deleteTodo i st = st)
  ∧ length (todos (deleteTodo i st)) ≤ length (todos st)
  ∧ input (deleteTodo i st) = input st
  ∧ todos (deleteTodo i st) `sublist_of` todos st
  ∧ (∀ r, r `sublist_of` todos st →
          Forall (λ todo, id todo ≠ i) r →
          length r + length (filter (λ todo, id todo = i) (todos st))
            = length (todos st) →
          r = todos (deleteTodo i st)).
Proof.
  split; [apply delete_length|]. split; [apply deleteTodo_elem|].
  split; [|split; [apply deleteTodo_absent|split; [|split; [done|split]]]].
  - intros Hnd Hi.
    destruct (unique_entry _ _ Hnd Hi) as (l1 & todo & l2 & Hl & Hid & Hl1 & Hl2).
    exists l1, todo, l2. split; [done|]. split; [done|].
    simpl. rewrite Hl, filter_app, filter_cons_False by (intros H; by apply H).
    by rewrite !delete_absent.
  - apply sublist_length, deleteTodo_sublist.
  - apply deleteTodo_sublist.
  - intros r Hsub Hr Hlen. simpl. by apply delete_determined.
Qed.

Lemma deleteTodo_spec_witness :
  ∃ l1 todo l2,
    [ mkTodo (lit "1") (lit "Buy milk") true; mkTodo (lit "2") (lit "Walk dog") false ]
      = l1 ++ todo :: l2
    ∧ id todo = lit "1"
    ∧ todos (deleteTodo (lit "1")
        {| todos := [ mkTodo (lit "1") (lit "Buy milk") true;
                      mkTodo (lit "2") (lit "Walk dog") false ];
           input := [] |})
      = l1 ++ l2.
Proof.
  destruct (deleteTodo_spec
              {| todos := [ mkTodo (lit "1") (lit "Buy milk") true;
                            mkTodo (lit "2") (lit "Walk dog") false ];
                 input := [] |} (lit "1")) as (_ & _ & Hone & _).
  apply Hone.
  - apply (bool_decide_unpack _). vm_compute. reflexivity.
  - apply (bool_decide_unpack _). vm_compute. reflexivity.
Defined.

(** *** C10 *)

(** C10: deleting the same [id] twice gives the same state as deleting it
    once; one delete removes every entry whose [id] is [i], so that no entry
    of the result carries [i], and it keeps every other entry. *)
Theorem deleteTodo_idempotent (st : AppState) (i : jsstring) :
  deleteTodo i (deleteTodo i st) = deleteTodo i st
  ∧ (i ∉ id <$> todos (deleteTodo i st))
  ∧ (∀ todo, todo ∈ todos (deleteTodo i st) ↔ todo ∈ todos st ∧ id todo ≠ i).
Proof.
  split; [|split; [apply deleteTodo_gone|apply deleteTodo_elem]].
  apply deleteTodo_absent, deleteTodo_gone.
Qed.

Example deleteTodo_duplicates :
  todos (deleteTodo (lit "5")
    {| todos := [ mkTodo (lit "5") (lit "a") false; mkTodo (lit "7") (lit "c") true;
                  mkTodo (lit "5") (lit "b") false ];
       input := lit "x" |})
  = [ mkTodo (lit "7") (lit "c") true ].
Proof. vm_compute. reflexivity. Qed.

Example deleteTodo_keeps_order :
  todos (deleteTodo (lit "5")
    {| todos := [ mkTodo (lit "5") (lit "a") false; mkTodo (lit "7") (lit "c") true;
                  mkTodo (lit "5") (lit "b") false; mkTodo (lit "8") (lit "d") false ];
       input := [] |})
  = [ mkTodo (lit "7") (lit "c") true; mkTodo (lit "8") (lit "d") false ].
Proof. vm_compute. reflexivity. Qed.

(** *** C6 *)

Lemma addTodo_prefix now st : todos st `prefix_of` todos (addTodo now st).
Proof.
  destruct (addTodo_cases now st) as [[_ ->]|[_ ->]]; [done|]. simpl.
  by apply prefix_app_r.
Qed.

Lemma notes_follow_insertion_log acts :
  note <$> todos (run acts) `sublist_of` note <$> insertion_log acts.
Proof.
  unfold insertion_log. induction acts as [|a acts IH] using rev_ind; [done|].
  rewrite run_logged_snoc, run_snoc. unfold step_logged. cbn [snd].
  rewrite run_logged_state. destruct a as [s|now|j|j]; simpl step.
  - rewrite app_nil_r. exact IH.
  - destruct (addTodo_cases now (run acts)) as [[_ ->]|[_ ->]].
    + rewrite drop_all, app_nil_r. exact IH.
    + simpl. rewrite drop_app_length, !fmap_app. by apply sublist_app.
  - rewrite app_nil_r, toggleTodo_notes. exact IH.
  - rewrite app_nil_r. etrans; [|exact IH]. apply fmap_sublist, deleteTodo_sublist.
Qed.

(** C6: the list is kept in insertion order. [addTodo] only appends at the
    end, [toggleTodo] keeps every Note in place, [deleteTodo] keeps the
    remaining entries in their relative order; so after any sequence of
    operations the Notes of the list, read from first to last, are a
    subsequence of the Notes in the order in which they were inserted. *)
Theorem insertion_order :
  (∀ now st, todos st `prefix_of` todos (addTodo now st))
  ∧ (∀ i st, note <$> todos (toggleTodo i st) = note <$> todos st)
  ∧ (∀ i st, todos (deleteTodo i st) `sublist_of` todos st)
  ∧ (∀ acts, note <$> todos (run acts) `sublist_of` note <$> insertion_log acts).
Proof.
  split; [apply addTodo_prefix|]. split; [apply toggleTodo_notes|].
  split; [apply deleteTodo_sublist|apply notes_follow_insertion_log].
Qed.

Example scenario :
  let acts := [ ChangeText (lit "Buy milk"); PressAdd 1700000000000;
                PressToggle (lit "1700000000000");
                ChangeText (lit "Walk dog"); PressAdd 1700000004321 ] in
  todos (run acts)
  = [ mkTodo (lit "1700000000000") (lit "Buy milk") true;
      mkTodo (lit "1700000004321") (lit "Walk dog") false ]
  ∧ insertion_log acts
    = [ mkTodo (lit "1700000000000") (lit "Buy milk") false;
        mkTodo (lit "1700000004321") (lit "Walk dog") false ]
  ∧ todos (run (acts ++ [ PressDelete (lit "1700000000000") ]))
    = [ mkTodo (lit "1700000004321") (lit "Walk dog") false ].
Proof. vm_compute. done. Qed.

(** ** The notification bridge *)

Lemma displayed_app h1 h2 : displayed (h1 ++ h2) = displayed h1 ++ displayed h2.
Proof. apply omap_app. Qed.

Ltac unfold_async :=
  unfold mbind, Async_bind, mret, Async_ret, try_catch, call, log; cbn zeta beta.

(** [displayNotification] only adds to the history. *)
Lemma displayNotification_extends m w h :
  ∃ new, (displayNotification m w h).1 = h ++ new.
Proof.
  unfold displayNotification. unfold_async.
  destruct (w h _ notifee_requestPermission) as [[]|e]; [|by eexists].
  destruct (w _ _ (notifee_createChannel defaultChannel)) as [cid|e];
    [|rewrite <- app_assoc; by eexists].
  destruct (w _ _ (notifee_displayNotification _)) as [nid|e];
    rewrite <- !app_assoc; by eexists.
Qed.

(** Both message handlers log the message and then display it. *)
Lemma handlers_display m w h :
  onMessage m w h
  = displayNotification m w
      (h ++ [Logged console_log (lit "Foreground notification:") (LogMessage m)])
  ∧ backgroundMessageHandler m w h
    = displayNotification m w
        (h ++ [Logged console_log (lit "Background notification:") (LogMessage m)]).
Proof. done. Qed.

(** *** C7 *)

(** C7, as stated, fails: a title and a body that are both present but
    empty are not shown verbatim; the fallback strings are shown. *)
Lemma displayNotification_empty_fields_fall_back :
  RemoteMessage.notification emptyFieldsMessage
    = Some {| RemoteMessage.title := Some []; RemoteMessage.body := Some [] |}
  ∧ Notifee.title <$> displayed (displayNotification emptyFieldsMessage grantingWorld []).1
    = [ lit "New Notification" ]
  ∧ Notifee.body <$> displayed (displayNotification emptyFieldsMessage grantingWorld []).1
    = [ lit "You have a new message" ]
  ∧ lit "New Notification" ≠ []
  ∧ lit "You have a new message" ≠ [].
Proof. vm_compute. done. Qed.

(** C7, amended: for every incoming remote message, when the permission
    request and the channel creation of [displayNotification] succeed,
    exactly one notification is handed to [notifee.displayNotification];
    its title is the message's title
    verbatim when that is present and not empty, and ["New Notification"]
    when the message has no notification, no title, or an empty title; its
    body is the message's body verbatim when that is present and not empty,
    and ["You have a new message"] otherwise. *)
Theorem displayNotification_fallbacks
    (m : RemoteMessage.t) (w : world) (h : history) (channelId : jsstring) :
  w h _ notifee_requestPermission = Normal () →
  w (h ++ [Called notifee_requestPermission (Normal ())]) _
    (notifee_createChannel defaultChannel) = Normal channelId →
  ∃ n, displayed (displayNotification m w h).1 = displayed h ++ [n]
    ∧ (∀ t, RemoteMessage.notification m ≫= RemoteMessage.title = Some t →
            t ≠ [] → Notifee.title n = t)
    ∧ (RemoteMessage.notification m ≫= RemoteMessage.title = None →
            Notifee.title n = lit "New Notification")
    ∧ (RemoteMessage.notification m ≫= RemoteMessage.title = Some [] →
            Notifee.title n = lit "New Notification")
    ∧ (∀ b, RemoteMessage.notification m ≫= RemoteMessage.body = Some b →
            b ≠ [] → Notifee.body n = b)
    ∧ (RemoteMessage.notification m ≫= RemoteMessage.body = None →
            Notifee.body n = lit "You have a new message")
    ∧ (RemoteMessage.notification m ≫= RemoteMessage.body = Some [] →
            Notifee.body n = lit "You have a new message").
Proof.
  intros Hperm Hchan. unfold displayNotification. unfold_async.
  rewrite Hperm. cbn iota beta. rewrite Hchan. cbn iota beta.
  match goal with |- context [notifee_displayNotification ?r] => exists r end.
  split.
  - destruct (w _ _ (notifee_displayNotification _)); cbn [fst];
      rewrite !displayed_app; cbn; by rewrite !app_nil_r.
  - cbn [Notifee.title Notifee.body]. unfold or_else.
    destruct (RemoteMessage.notification m) as [[t0 b0]|]; cbn;
      repeat split; intros; simplify_eq; try done; by rewrite decide_False.
Qed.

Lemma displayNotification_fallbacks_witness :
  ∃ n, displayed (displayNotification titleOnlyMessage grantingWorld []).1
       = displayed [] ++ [n]
    ∧ (∀ t, RemoteMessage.notification titleOnlyMessage ≫= RemoteMessage.title = Some t →
            t ≠ [] → Notifee.title n = t)
    ∧ (RemoteMessage.notification titleOnlyMessage ≫= RemoteMessage.title = None →
            Notifee.title n = lit "New Notification")
    ∧ (RemoteMessage.notification titleOnlyMessage ≫= RemoteMessage.title = Some [] →
            Notifee.title n = lit "New Notification")
    ∧ (∀ b, RemoteMessage.notification titleOnlyMessage ≫= RemoteMessage.body = Some b →
            b ≠ [] → Notifee.body n = b)
    ∧ (RemoteMessage.notification titleOnlyMessage ≫= RemoteMessage.body = None →
            Notifee.body n = lit "You have a new message")
    ∧ (RemoteMessage.notification titleOnlyMessage ≫= RemoteMessage.body = Some [] →
            Notifee.body n = lit "You have a new message").
Proof.
  apply (displayNotification_fallbacks titleOnlyMessage grantingWorld [] (lit "default")).
  - reflexivity.
  - reflexivity.
Defined.

Example displayNotification_title_only :
  (λ n, (Notifee.title n, Notifee.body n))
    <$> displayed (displayNotification titleOnlyMessage grantingWorld []).1
  = [ (lit "Hello", lit "You have a new message") ].
Proof. vm_compute. reflexivity. Qed.

Example displayNotification_no_notification :
  (λ n, (Notifee.title n, Notifee.body n))
    <$> displayed (displayNotification {| RemoteMessage.notification := None |}
                     grantingWorld []).1
  = [ (lit "New Notification", lit "You have a new message") ].
Proof. vm_compute. reflexivity. Qed.

(** *** C8 *)

(** Neither [registerDeviceForMessaging] nor [requestUserPermission] lets
    an error escape, whatever the services do. *)
Lemma registerDeviceForMessaging_never_throws w h :
  (registerDeviceForMessaging w h).2 = Normal ().
Proof.
  unfold registerDeviceForMessaging. unfold_async.
  destruct (w h _ messaging_registerDeviceForRemoteMessages) as [[]|e]; [|done].
  by destruct (w _ _ messaging_getToken) as [token|e].
Qed.

Lemma requestUserPermission_never_throws P w h :
  (requestUserPermission P w h).2 = Normal ().
Proof.
  unfold requestUserPermission, try_catch.
  match goal with |- context [match ?body w h with _ => _ end] =>
    destruct (body w h) as [h' [[]|e]] eqn:Hbody end; done.
Qed.

(** C8, as stated, fails where it says that every failure is logged: when
    permission is denied, the flow ends after the request and nothing is
    written to the console. *)
Lemma requestUserPermission_denial_not_logged :
  permission_refused {| OS := ios; Version := 17 |} denyingWorld []
  ∧ requestUserPermission {| OS := ios; Version := 17 |} denyingWorld []
    = ([ Called messaging_requestPermission (Normal AuthorizationStatus.DENIED) ],
       Normal ())
  ∧ is_logged
      <$> (requestUserPermission {| OS := ios; Version := 17 |} denyingWorld []).1
    = [ false ]
  ∧ is_logged
      <$> (requestUserPermission {| OS := android; Version := 34 |} denyingWorld []).1
    = [ false ].
Proof.
  split; [|by vm_compute].
  by apply (ios_denied _ _ _ AuthorizationStatus.DENIED).
Qed.

(** C8, amended: in every run of [requestUserPermission] in which
    permission is denied (on iOS a status that is neither AUTHORIZED nor
    PROVISIONAL, on Android 33 or later a result other than GRANTED) or in
    which the permission request throws, no device-registration call is made
    and the flow completes normally, so that no error escapes. A thrown
    error is caught and written to the console; a denial is not written to
    the console: the run consists of the permission request alone. *)
Theorem requestUserPermission_refused (P : Platform) (w : world) (h : history) :
  permission_refused P w h →
  ∃ new, requestUserPermission P w h = (h ++ new, Normal ())
    ∧ Forall (λ ev, is_registration ev = false) new
    ∧ (∀ e, request_throws P w h e →
         last new = Some (Logged console_error (lit "Error requesting permission:")
                            (LogError e)))
    ∧ ((∀ e, ¬ request_throws P w h e) →
         Forall (λ ev, is_logged ev = false) new ∧ length new = 1).
Proof.
  unfold requestUserPermission, request_throws.
  intros [status HOS Hreq Hna Hnp|e HOS Hreq|result HOS Hver Hreq Hng|e HOS Hver Hreq];
    rewrite HOS; unfold_async.
  - rewrite Hreq. cbn iota beta.
    rewrite (bool_decide_eq_false_2 _ Hna), (bool_decide_eq_false_2 _ Hnp). cbn.
    eexists. split; [done|]. split; [by repeat constructor|].
    split; [congruence|]. intros _. by repeat constructor.
  - rewrite Hreq. cbn iota beta. rewrite <- app_assoc.
    eexists. split; [done|]. split; [by repeat constructor|]. split.
    + intros e' He'. by simplify_eq.
    + intros Hno. by destruct (Hno e).
  - rewrite decide_True by done. unfold_async. rewrite Hreq. cbn iota beta.
    rewrite decide_False by done.
    eexists. split; [done|]. split; [by repeat constructor|]. split.
    + intros e' [_ He']. congruence.
    + intros _. by repeat constructor.
  - rewrite decide_True by done. unfold_async. rewrite Hreq. cbn iota beta.
    rewrite <- app_assoc.
    eexists. split; [done|]. split; [by repeat constructor|]. split.
    + intros e' [_ He']. by simplify_eq.
    + intros Hno. by destruct (Hno e).
Qed.

Lemma requestUserPermission_refused_witness :
  ∃ new, requestUserPermission {| OS := ios; Version := 17 |} denyingWorld []
         = ([] ++ new, Normal ())
    ∧ Forall (λ ev, is_registration ev = false) new
    ∧ (∀ e, request_throws {| OS := ios; Version := 17 |} denyingWorld [] e →
         last new = Some (Logged console_error (lit "Error requesting permission:")
                            (LogError e)))
    ∧ ((∀ e, ¬ request_throws {| OS := ios; Version := 17 |} denyingWorld [] e) →
         Forall (λ ev, is_logged ev = false) new ∧ length new = 1).
Proof.
  apply (requestUserPermission_refused {| OS := ios; Version := 17 |} denyingWorld []).
  apply (ios_denied _ _ _ AuthorizationStatus.DENIED).
  - reflexivity.
  - reflexivity.
  - discriminate.
  - discriminate.
Defined.

(** The flow on the three kinds of run: permission granted, permission
    denied, the request throwing. *)
Example requestUserPermission_granted_registers :
  is_registration
    <$> (requestUserPermission {| OS := android; Version := 34 |} grantingWorld []).1
  = [ false; true; false; false ].
Proof. vm_compute. reflexivity. Qed.

Example requestUserPermission_denied_android :
  is_registration
    <$> (requestUserPermission {| OS := android; Version := 34 |} denyingWorld []).1
  = [ false ].
Proof. vm_compute. reflexivity. Qed.

Example requestUserPermission_old_android_registers :
  is_registration
    <$> (requestUserPermission {| OS := android; Version := 30 |} denyingWorld []).1
  = [ true; false; false ].
Proof. vm_compute. reflexivity. Qed.

Example requestUserPermission_throwing :
  requestUserPermission {| OS := ios; Version := 17 |} failingWorld []
  = ([ Called messaging_requestPermission (Throw {| message := lit "unavailable" |});
       Logged console_error (lit "Error requesting permission:")
         (LogError {| message := lit "unavailable" |}) ],
     Normal ()).
Proof. reflexivity. Qed.

(** * Further properties of the store *)

(** ** Blank input *)

Lemma trimStart_blank s : blank s → trimStart s = [].
Proof.
  induction 1 as [|c s Hc _ IH]; [done|]. simpl. by rewrite Hc.
Qed.

Lemma blank_trimStart s : blank (trimStart s) → blank s.
Proof.
  induction s as [|c s IH]; [done|]. simpl.
  destruct (isTrimmed c) eqn:Hc; [|done].
  intros Hs. constructor; [done|]. by apply IH.
Qed.

Lemma trimStart_nil_blank s : trimStart s = [] → blank s.
Proof. intros Hs. apply blank_trimStart. rewrite Hs. constructor. Qed.

Lemma trim_nil_iff s : trim s = [] ↔ blank s.
Proof.
  unfold trim, trimEnd. split.
  - intros Hs. apply blank_trimStart.
    assert (Hrev : trimStart (reverse (trimStart s)) = []).
    { apply nil_length_inv. rewrite <- length_reverse. by rewrite Hs. }
    apply trimStart_nil_blank in Hrev. unfold blank in *.
    by rewrite Forall_reverse in Hrev.
  - intros Hs. by rewrite (trimStart_blank s Hs).
Qed.

(** X1: pressing Add leaves the list as it is exactly when every code unit
    of the pending input is white space or a line terminator (the empty
    input included); any other input adds a Note. *)
Theorem addTodo_noop_iff_blank (st : AppState) (now : Z) :
  todos (addTodo now st) = todos st ↔ blank (input st).
Proof.
  rewrite <- trim_nil_iff.
  destruct (addTodo_cases now st) as [[Hb ->]|[Hnb ->]]; [done|]. simpl. split; [|done].
  intros Heq. apply (f_equal length) in Heq. rewrite length_app in Heq. simpl in Heq. lia.
Qed.

(** X2: in every state the store can reach, the text of every Note has a
    non-empty trimmed form: no blank Note is ever in the list. *)
Theorem texts_never_blank (acts : list Action) :
  Forall (λ todo, trim (text todo) ≠ []) (todos (run acts)).
Proof.
  induction acts as [|a acts IH] using rev_ind; [constructor|].
  rewrite run_snoc. destruct a as [s|now|j|j]; simpl step.
  - exact IH.
  - destruct (addTodo_cases now (run acts)) as [[_ ->]|[Hnb ->]]; [exact IH|]. simpl.
    apply Forall_app. split; [exact IH|]. by apply Forall_singleton.
  - simpl. apply Forall_fmap. eapply Forall_impl; [exact IH|].
    intros todo Htodo. simpl. by rewrite toggleOne_text.
  - apply Forall_forall. intros todo [Hin _]%deleteTodo_elem.
    by apply (proj1 (Forall_forall _ _) IH).
Qed.

(** X3: a second press on Add, with nothing typed in between, adds nothing:
    the first press has cleared the pending input. *)
Theorem addTodo_twice (st : AppState) (now now' : Z) :
  addTodo now' (addTodo now st) = addTodo now st.
Proof.
  destruct (addTodo_cases now st) as [[Hb ->]|[_ ->]].
  - destruct (addTodo_cases now' st) as [[_ ->]|[Hnb _]]; done.
  - reflexivity.
Qed.

(** X4: deleting the identifier that an add has just assigned leaves the
    list that the same delete gives without the add; when the identifier was
    not in the list before, the list is back to what it was. *)
Theorem deleteTodo_undoes_addTodo (st : AppState) (now : Z) :
  todos (deleteTodo (toString now) (addTodo now st))
  = todos (deleteTodo (toString now) st)
  ∧ (toString now ∉ id <$> todos st →
     todos (deleteTodo (toString now) (addTodo now st)) = todos st).
Proof.
  assert (H : todos (deleteTodo (toString now) (addTodo now st))
              = todos (deleteTodo (toString now) st)).
  { destruct (addTodo_cases now st) as [[_ ->]|[_ ->]]; [done|]. simpl.
    rewrite filter_app, filter_cons_False by (intros Hne; by apply Hne).
    by rewrite filter_nil, app_nil_r. }
  split; [exact H|]. intros Hfresh. rewrite H. by rewrite deleteTodo_absent.
Qed.

Lemma deleteTodo_undoes_addTodo_witness :
  todos (deleteTodo (toString 1700000004321)
           (addTodo 1700000004321
              {| todos := [ mkTodo (lit "1700000000000") (lit "Buy milk") true ];
                 input := lit "Walk dog" |}))
  = [ mkTodo (lit "1700000000000") (lit "Buy milk") true ].
Proof.
  destruct (deleteTodo_undoes_addTodo
              {| todos := [ mkTodo (lit "1700000000000") (lit "Buy milk") true ];
                 input := lit "Walk dog" |} 1700000004321) as [_ Hfresh].
  apply Hfresh. apply (bool_decide_unpack _). vm_compute. reflexivity.
Defined.

(** ** The handlers commute *)

Lemma toggleOne_comm i j todo :
  toggleOne i (toggleOne j todo) = toggleOne j (toggleOne i todo).
Proof.
  unfold toggleOne, flipDone. destruct todo as [k t d]; simpl.
  repeat (case_decide; simpl in * ); done.
Qed.

Lemma filter_toggle i j (l : list Todo) :
  filter (λ todo, id todo ≠ j) (toggleOne i <$> l)
  = toggleOne i <$> filter (λ todo, id todo ≠ j) l.
Proof.
  induction l as [|todo l IH]; [done|].
  rewrite fmap_cons, !filter_cons, toggleOne_id.
  case_decide; [|done]. by rewrite fmap_cons, IH.
Qed.

(** X5: toggles and deletes, of the same or of different identifiers, can be
    done in either order: a toggle commutes with a delete, two deletes
    commute, two toggles commute. *)
Theorem handlers_commute (st : AppState) (i j : jsstring) :
  toggleTodo i (deleteTodo j st) = deleteTodo j (toggleTodo i st)
  ∧ deleteTodo i (deleteTodo j st) = deleteTodo j (deleteTodo i st)
  ∧ toggleTodo i (toggleTodo j st) = toggleTodo j (toggleTodo i st).
Proof.
  destruct st as [l s]. unfold toggleTodo, deleteTodo; simpl. repeat split; f_equal.
  - by rewrite filter_toggle.
  - rewrite !list_filter_filter. apply list_filter_iff. tauto.
  - rewrite <- !list_fmap_compose. apply list_fmap_ext.
    intros _ todo _. apply toggleOne_comm.
Qed.

(** ** Counting *)

(** X6: the list never holds more Notes than the Add button was pressed. *)
Theorem length_bounded_by_adds (acts : list Action) :
  length (todos (run acts)) ≤ length (clockReadings acts).
Proof.
  induction acts as [|a acts IH] using rev_ind; [done|].
  rewrite run_snoc, clockReadings_snoc, length_app.
  destruct a as [s|now|j|j]; simpl step.
  - simpl. lia.
  - destruct (addTodo_cases now (run acts)) as [[_ ->]|[_ ->]]; simpl.
    + lia.
    + rewrite length_app. simpl. lia.
  - simpl. rewrite length_fmap. lia.
  - pose proof (sublist_length _ _ (deleteTodo_sublist j (run acts))). simpl in *. lia.
Qed.

(** X7: a Note is done only through a toggle: after a run without a press
    on the text of a row, no Note of the list is done. *)
Theorem done_only_by_toggle (acts : list Action) :
  Forall (λ a, is_toggle a = false) acts →
  Forall (λ todo, done todo = false) (todos (run acts)).
Proof.
  induction acts as [|a acts IH] using rev_ind; [constructor|].
  intros [Hacts Ha]%Forall_app. specialize (IH Hacts).
  apply Forall_inv in Ha.
  rewrite run_snoc. destruct a as [s|now|j|j]; simpl step;
    [exact IH| |discriminate Ha|].
  - destruct (addTodo_cases now (run acts)) as [[_ ->]|[_ ->]]; [exact IH|]. simpl.
    apply Forall_app. split; [exact IH|]. by apply Forall_singleton.
  - apply Forall_forall. intros todo [Hin _]%deleteTodo_elem.
    by apply (proj1 (Forall_forall _ _) IH).
Qed.

Lemma done_only_by_toggle_witness :
  Forall (λ todo, done todo = false)
    (todos (run [ ChangeText (lit "Buy milk"); PressAdd 1700000000000;
                  ChangeText (lit "Walk dog"); PressAdd 1700000004321;
                  PressDelete (lit "1700000000000") ])).
Proof.
  apply (done_only_by_toggle
           [ ChangeText (lit "Buy milk"); PressAdd 1700000000000;
             ChangeText (lit "Walk dog"); PressAdd 1700000004321;
             PressDelete (lit "1700000000000") ]).
  repeat constructor.
Defined.

(** * Properties of the screen *)

(** In a list with pairwise-distinct identifiers, the entry at a position
    is the only one that carries its identifier. *)
Lemma entry_at (l : list Todo) (k : nat) (todo : Todo) :
  NoDup (id <$> l) → l !! k = Some todo →
  l = take k l ++ todo :: drop (S k) l
  ∧ (id todo ∉ id <$> take k l) ∧ (id todo ∉ id <$> drop (S k) l).
Proof.
  intros Hnd Hk. pose proof (take_drop_middle l k todo Hk) as Hl.
  split; [done|]. rewrite <- Hl, fmap_app, fmap_cons in Hnd.
  apply NoDup_app in Hnd as (_ & Hl1 & [Hl2 _]%NoDup_cons).
  split; [|done]. intros Hi. apply (Hl1 _ Hi). by left.
Qed.

(** X8: when the identifiers of the list are pairwise distinct, the row at
    position [k] shows the text of the Note at position [k], struck through
    when the Note is done; a press on its delete control removes the Note at
    position [k] and no other, and a press on its text flips the [done]
    flag of the Note at position [k] and of no other. *)
Theorem press_row (scheme : option ColorScheme) (st : AppState) (k : nat) (row : Row.t) :
  NoDup (id <$> todos st) →
  rows scheme st !! k = Some row →
  ∃ todo, todos st !! k = Some todo
    ∧ Row.label row = text todo
    ∧ Row.lineThrough row = done todo
    ∧ todos (step st (Row.onPressDelete row)) = delete k (todos st)
    ∧ todos (step st (Row.onPressText row)) = <[k := flipDone todo]> (todos st).
Proof.
  intros Hnd Hrow. unfold rows in Hrow.
  apply list_lookup_fmap_Some in Hrow as (todo & -> & Hk).
  exists todo. split; [done|]. split; [done|]. split; [done|].
  destruct (entry_at _ _ _ Hnd Hk) as (Hl & Hl1 & Hl2). simpl. split.
  - rewrite Hl at 1. rewrite filter_app, filter_cons_False by (intros H; by apply H).
    by rewrite !delete_absent, delete_take_drop.
  - rewrite Hl at 1. rewrite fmap_app, fmap_cons, !toggle_absent by done.
    unfold toggleOne. rewrite decide_True by done.
    rewrite insert_take_drop; [done|]. by eapply lookup_lt_Some.
Qed.

Lemma press_row_witness :
  ∃ todo,
    [ mkTodo (lit "1") (lit "Buy milk") false; mkTodo (lit "2") (lit "Walk dog") true ]
      !! 1 = Some todo
    ∧ Row.label (renderItem (theme (Some dark)) (mkTodo (lit "2") (lit "Walk dog") true))
      = text todo
    ∧ Row.lineThrough (renderItem (theme (Some dark)) (mkTodo (lit "2") (lit "Walk dog") true))
      = done todo
    ∧ todos (step {| todos := [ mkTodo (lit "1") (lit "Buy milk") false;
                                mkTodo (lit "2") (lit "Walk dog") true ];
                     input := [] |}
               (Row.onPressDelete
                  (renderItem (theme (Some dark)) (mkTodo (lit "2") (lit "Walk dog") true))))
      = delete 1 [ mkTodo (lit "1") (lit "Buy milk") false;
                   mkTodo (lit "2") (lit "Walk dog") true ]
    ∧ todos (step {| todos := [ mkTodo (lit "1") (lit "Buy milk") false;
                                mkTodo (lit "2") (lit "Walk dog") true ];
                     input := [] |}
               (Row.onPressText
                  (renderItem (theme (Some dark)) (mkTodo (lit "2") (lit "Walk dog") true))))
      = <[1 := flipDone todo]>
          [ mkTodo (lit "1") (lit "Buy milk") false;
            mkTodo (lit "2") (lit "Walk dog") true ].
Proof.
  apply (press_row (Some dark)
           {| todos := [ mkTodo (lit "1") (lit "Buy milk") false;
                         mkTodo (lit "2") (lit "Walk dog") true ];
              input := [] |} 1
           (renderItem (theme (Some dark)) (mkTodo (lit "2") (lit "Walk dog") true))).
  - apply (bool_decide_unpack _). vm_compute. reflexivity.
  - reflexivity.
Defined.

(** X9: under every colour scheme, the text of a row is never drawn in the
    colour of its card, nor is the delete control; and a toggle always
    changes how the row looks: the text colour changes and the line through
    the text appears or disappears. *)
Theorem row_legible (scheme : option ColorScheme) (todo : Todo) :
  Row.color (renderItem (theme scheme) todo)
    ≠ Row.backgroundColor (renderItem (theme scheme) todo)
  ∧ Row.deleteColor (renderItem (theme scheme) todo)
    ≠ Row.backgroundColor (renderItem (theme scheme) todo)
  ∧ Row.color (renderItem (theme scheme) (flipDone todo))
    ≠ Row.color (renderItem (theme scheme) todo)
  ∧ Row.lineThrough (renderItem (theme scheme) (flipDone todo))
    = negb (Row.lineThrough (renderItem (theme scheme) todo)).
Proof.
  destruct todo as [i t d]. destruct scheme as [[]|], d; vm_compute; by repeat split.
Qed.

(** * Further properties of the notification bridge *)

(** ** Device registration *)

(** X10: [registerDeviceForMessaging] never throws. When the registration
    call throws, the token is not fetched and the error is written to the
    console; when the token fetch throws, the error is written to the
    console; when both succeed, the token is written to the console. *)
Theorem registerDeviceForMessaging_outcomes (w : world) (h : history) :
  (registerDeviceForMessaging w h).2 = Normal ()
  ∧ (∀ e, w h _ messaging_registerDeviceForRemoteMessages = Throw e →
       (registerDeviceForMessaging w h).1
       = h ++ [ Called messaging_registerDeviceForRemoteMessages (Throw e);
                Logged console_error (lit "Error registering device:") (LogError e) ])
  ∧ (∀ e, w h _ messaging_registerDeviceForRemoteMessages = Normal () →
       w (h ++ [ Called messaging_registerDeviceForRemoteMessages (Normal ()) ]) _
         messaging_getToken = Throw e →
       (registerDeviceForMessaging w h).1
       = h ++ [ Called messaging_registerDeviceForRemoteMessages (Normal ());
                Called messaging_getToken (Throw e);
                Logged console_error (lit "Error registering device:") (LogError e) ])
  ∧ (∀ token, w h _ messaging_registerDeviceForRemoteMessages = Normal () →
       w (h ++ [ Called messaging_registerDeviceForRemoteMessages (Normal ()) ]) _
         messaging_getToken = Normal token →
       (registerDeviceForMessaging w h).1
       = h ++ [ Called messaging_registerDeviceForRemoteMessages (Normal ());
                Called messaging_getToken (Normal token);
                Logged console_log (lit "FCM Token:") (LogString token) ]).
Proof.
  split; [apply registerDeviceForMessaging_never_throws|].
  unfold registerDeviceForMessaging. unfold_async. repeat split.
  - intros e ->. cbn. by rewrite <- app_assoc.
  - intros e -> He. cbn iota beta. rewrite He. cbn. by rewrite <- !app_assoc.
  - intros token -> Ht. cbn iota beta. rewrite Ht. cbn. by rewrite <- !app_assoc.
Qed.

Lemma registerDeviceForMessaging_outcomes_witness :
  (registerDeviceForMessaging failingWorld []).1
  = [] ++ [ Called messaging_registerDeviceForRemoteMessages
              (Throw {| message := lit "unavailable" |});
            Logged console_error (lit "Error registering device:")
              (LogError {| message := lit "unavailable" |}) ].
Proof.
  destruct (registerDeviceForMessaging_outcomes failingWorld []) as (_ & Hthrow & _).
  apply Hthrow. reflexivity.
Defined.

(** A run of [registerDeviceForMessaging] starts with the registration call,
    makes no second one and no permission request, and completes normally. *)
Lemma registerDeviceForMessaging_shape w h :
  ∃ r rest,
    registerDeviceForMessaging w h
    = (h ++ Called messaging_registerDeviceForRemoteMessages r :: rest, Normal ())
    ∧ Forall (λ ev, is_registration ev = false ∧ is_permission_request ev = false) rest.
Proof.
  unfold registerDeviceForMessaging. unfold_async.
  destruct (w h _ messaging_registerDeviceForRemoteMessages) as [[]|e] eqn:Hreg.
  - destruct (w _ _ messaging_getToken) as [token|e] eqn:Htok;
      rewrite <- !app_assoc; eexists _, _; split; [done| |done|]; by repeat constructor.
  - rewrite <- !app_assoc. eexists _, _. split; [done|]. by repeat constructor.
Qed.

Lemma filter_none {A} (P : A → Prop) `{∀ x, Decision (P x)} (l : list A) :
  Forall (λ x, ¬ P x) l → filter P l = [].
Proof.
  induction 1 as [|x l Hx _ IH]; [done|]. by rewrite filter_cons_False.
Qed.

(** ** The permission flow *)

Ltac unfold_flow :=
  unfold requestUserPermission, try_catch, mbind, Async_bind, call, log, mret, Async_ret;
  cbn zeta beta.

Ltac decide_status :=
  repeat first [ rewrite bool_decide_eq_true_2 by done
               | rewrite bool_decide_eq_false_2 by done ].

Ltac no_registration H :=
  repeat (apply Exists_cons in H as [H|H]; [by simpl in H|]); by apply Exists_nil in H.

Lemma rest_filters (rest : list event) :
  Forall (λ ev, is_registration ev = false ∧ is_permission_request ev = false) rest →
  filter (λ ev, is_registration ev = true) rest = []
  ∧ filter (λ ev, is_permission_request ev = true) rest = [].
Proof.
  intros Hrest. split; apply filter_none; eapply Forall_impl; try exact Hrest;
    intros ev [H1 H2]; simpl; congruence.
Qed.

(** X12: when permission is obtained, the rest of the flow is exactly a run
    of [registerDeviceForMessaging] after the permission request (after
    nothing, on Android below 33, where no permission is requested): the
    outer handler is not entered, so an error of the registration is
    reported as a registration error. *)
Theorem requestUserPermission_obtained (P : Platform) (w : world) (h : history) :
  permission_obtained P w h →
  requestUserPermission P w h
  = registerDeviceForMessaging w (h ++ permission_events P w h).
Proof.
  intros [status HOS Hreq Hst|HOS Hver Hreq|HOS Hver];
    unfold permission_events; unfold_flow; rewrite HOS.
  - rewrite Hreq. cbn iota beta.
    destruct (registerDeviceForMessaging_shape w
                (h ++ [Called messaging_requestPermission (Normal status)]))
      as (r & rest & Heq & _).
    destruct Hst as [-> | ->]; decide_status; cbn; by rewrite Heq.
  - rewrite !decide_True by done. unfold mbind, Async_bind, call. cbn zeta beta.
    rewrite Hreq. cbn.
    destruct (registerDeviceForMessaging_shape w
                (h ++ [Called (PermissionsAndroid_request POST_NOTIFICATIONS)
                         (Normal RESULTS.GRANTED)]))
      as (r & rest & Heq & _).
    rewrite decide_True by done. by rewrite Heq.
  - rewrite !decide_False by lia. rewrite app_nil_r.
    destruct (registerDeviceForMessaging_shape w h) as (r & rest & Heq & _).
    by rewrite Heq.
Qed.

Lemma requestUserPermission_obtained_witness :
  requestUserPermission {| OS := android; Version := 30 |} denyingWorld []
  = registerDeviceForMessaging denyingWorld
      ([] ++ permission_events {| OS := android; Version := 30 |} denyingWorld []).
Proof.
  apply (requestUserPermission_obtained {| OS := android; Version := 30 |} denyingWorld []).
  apply android_before_33.
  - reflexivity.
  - simpl. lia.
Defined.

Ltac refused_run :=
  eexists; split; [by rewrite <- ?app_assoc|]; split;
  [ split;
    [ let H := fresh in intros H; no_registration H
    | let H := fresh in let Hst := fresh in
      intros H; destruct H as [? ? ? Hst|? ? ?|? ?]; try congruence; try lia;
      destruct Hst; congruence ]
  | split; vm_compute; lia ].

Ltac registering_run Hobtained :=
  match goal with
  | |- context [registerDeviceForMessaging ?w ?h'] =>
      let r := fresh "r" in let rest := fresh "rest" in
      let Heq := fresh "Heq" in let Hrest := fresh "Hrest" in
      destruct (registerDeviceForMessaging_shape w h') as (r & rest & Heq & Hrest);
      rewrite Heq; cbn iota beta; rewrite <- ?app_assoc;
      destruct (rest_filters rest Hrest) as [Hreg Hperm];
      eexists; split; [done|]; split;
      [ split; [intros _; exact Hobtained
               | intros _; apply Exists_exists; eexists; split;
                 [first [ apply elem_of_app; right; apply list_elem_of_here
                        | apply list_elem_of_here ]|done] ]
      | rewrite ?filter_app, !filter_cons, Hreg, Hperm; split; vm_compute; lia ]
  end.

(** X11: every run of [requestUserPermission], on every platform and
    whatever the services do, completes normally; it makes a
    device-registration call exactly when permission is obtained, never more
    than one, and never more than one permission request. *)
Theorem registration_iff_permission (P : Platform) (w : world) (h : history) :
  ∃ new, requestUserPermission P w h = (h ++ new, Normal ())
    ∧ (Exists (λ ev, is_registration ev = true) new ↔ permission_obtained P w h)
    ∧ length (filter (λ ev, is_registration ev = true) new) ≤ 1
    ∧ length (filter (λ ev, is_permission_request ev = true) new) ≤ 1.
Proof.
  unfold_flow. destruct (OS P) eqn:HOS.
  - destruct (w h _ messaging_requestPermission) as [status|e] eqn:Hreq; cbn iota beta.
    + destruct status; decide_status; cbn [orb]; cbn iota beta.
      * refused_run.
      * refused_run.
      * registering_run (ios_enabled P w h _ HOS Hreq (or_introl eq_refl)).
      * registering_run (ios_enabled P w h _ HOS Hreq (or_intror eq_refl)).
      * refused_run.
    + refused_run.
  - destruct (decide (33 ≤ Version P)%Z) as [Hver|Hver].
    + unfold mbind, Async_bind, call. cbn zeta beta.
      destruct (w h _ (PermissionsAndroid_request POST_NOTIFICATIONS))
        as [result|e] eqn:Hreq; cbn iota beta.
      * destruct result.
        -- rewrite decide_True by done.
           registering_run (android_granted P w h HOS Hver Hreq).
        -- rewrite decide_False by done. refused_run.
        -- rewrite decide_False by done. refused_run.
      * refused_run.
    + assert (Hlt : (Version P < 33)%Z) by lia.
      registering_run (android_before_33 P w h HOS Hlt).
  - exists []. rewrite app_nil_r. split; [done|]. split; [|by split; simpl; lia].
    split; [by intros ?%Exists_nil|]. intros H; destruct H; congruence.
  - exists []. rewrite app_nil_r. split; [done|]. split; [|by split; simpl; lia].
    split; [by intros ?%Exists_nil|]. intros H; destruct H; congruence.
  - exists []. rewrite app_nil_r. split; [done|]. split; [|by split; simpl; lia].
    split; [by intros ?%Exists_nil|]. intros H; destruct H; congruence.
Qed.

(** ** Displaying a notification *)



(** X14: when the permission request and the channel creation succeed, the
    notification is posted on the channel whose identifier the channel
    creation returned, with the launcher icon, the default press action and
    the default sound. *)
Theorem displayNotification_channel
    (m : RemoteMessage.t) (w : world) (h : history) (channelId : jsstring) :
  w h _ notifee_requestPermission = Normal () →
  w (h ++ [Called notifee_requestPermission (Normal ())]) _
    (notifee_createChannel defaultChannel) = Normal channelId →
  ∃ n, displayed (displayNotification m w h).1 = displayed h ++ [n]
    ∧ Notifee.channelId (Notifee.android n) = channelId
    ∧ Notifee.smallIcon (Notifee.android n) = lit "ic_launcher"
    ∧ Notifee.pressActionId (Notifee.pressAction (Notifee.android n)) = lit "default"
    ∧ Notifee.sound (Notifee.ios n) = lit "default".
Proof.
  intros Hperm Hchan. unfold displayNotification. unfold_async.
  rewrite Hperm. cbn iota beta. rewrite Hchan. cbn iota beta.
  match goal with |- context [notifee_displayNotification ?r] => exists r end.
  split; [|done].
  destruct (w _ _ (notifee_displayNotification _)); cbn [fst];
    rewrite !displayed_app; cbn; by rewrite !app_nil_r.
Qed.

Lemma displayNotification_channel_witness :
  ∃ n, displayed (displayNotification titleOnlyMessage grantingWorld []).1
       = displayed [] ++ [n]
    ∧ Notifee.channelId (Notifee.android n) = lit "default"
    ∧ Notifee.smallIcon (Notifee.android n) = lit "ic_launcher"
    ∧ Notifee.pressActionId (Notifee.pressAction (Notifee.android n)) = lit "default"
    ∧ Notifee.sound (Notifee.ios n) = lit "default".
Proof.
  apply (displayNotification_channel titleOnlyMessage grantingWorld [] (lit "default")).
  - reflexivity.
  - reflexivity.
Defined.

Lemma or_else_nonempty v fallback : fallback ≠ [] → or_else v fallback ≠ [].
Proof. intros Hf. unfold or_else. destruct v as [s|]; [|done]. by case_decide. Qed.

(** X15: whatever the message and whatever the services do, a run of
    [displayNotification] hands at most one notification to Notifee, and its
    title and its body are never empty. *)
Theorem displayNotification_never_empty (m : RemoteMessage.t) (w : world) (h : history) :
  ∃ new, (displayNotification m w h).1 = h ++ new
    ∧ length (displayed new) ≤ 1
    ∧ Forall (λ n, Notifee.title n ≠ [] ∧ Notifee.body n ≠ []) (displayed new).
Proof.
  unfold displayNotification. unfold_async.
  destruct (w h _ notifee_requestPermission) as [[]|e]; cbn iota beta.
  - destruct (w _ _ (notifee_createChannel defaultChannel)) as [cid|e]; cbn iota beta.
    + assert (Hshown : ∀ n r,
                Notifee.title n ≠ [] → Notifee.body n ≠ [] →
                length (displayed [ Called notifee_requestPermission (Normal ());
                                    Called (notifee_createChannel defaultChannel) (Normal cid);
                                    Called (notifee_displayNotification n) r ]) ≤ 1
                ∧ Forall (λ n, Notifee.title n ≠ [] ∧ Notifee.body n ≠ [])
                    (displayed [ Called notifee_requestPermission (Normal ());
                                 Called (notifee_createChannel defaultChannel) (Normal cid);
                                 Called (notifee_displayNotification n) r ])).
      { intros n r Ht Hb. cbn. split; [lia|]. by repeat constructor. }
      match goal with |- context [w ?h' _ (notifee_displayNotification ?n)] =>
        destruct (w h' _ (notifee_displayNotification n)) as [nid|e] end;
        cbn iota beta; cbn [fst]; rewrite <- !app_assoc; eexists; (split; [done|]);
        apply Hshown; cbn [Notifee.title Notifee.body];
        by apply or_else_nonempty.
    + rewrite <- !app_assoc. eexists. split; [done|]. cbn. split; [lia|constructor].
  - eexists. split; [done|]. cbn. split; [lia|constructor].
Qed.

(** * Where the texts come from *)

Lemma input_was_typed (acts : list Action) :
  input (run acts) = [] ∨ ChangeText (input (run acts)) ∈ acts.
Proof.
  induction acts as [|a acts IH] using rev_ind; [by left|].
  rewrite run_snoc. destruct a as [s|now|j|j]; simpl step.
  - right. simpl. apply elem_of_app. right. by apply list_elem_of_singleton.
  - destruct (addTodo_cases now (run acts)) as [[_ ->]|[_ ->]]; [|by left].
    destruct IH as [IH|IH]; [by left|right]. apply elem_of_app. by left.
  - simpl. destruct IH as [IH|IH]; [by left|right]. apply elem_of_app. by left.
  - simpl. destruct IH as [IH|IH]; [by left|right]. apply elem_of_app. by left.
Qed.

(** X16: the text of every Note of a reachable state is, code unit for code
    unit, a text the user typed into the input field during the run. *)
Theorem texts_were_typed (acts : list Action) :
  Forall (λ todo, ChangeText (text todo) ∈ acts) (todos (run acts)).
Proof.
  induction acts as [|a acts IH] using rev_ind; [constructor|].
  assert (Hold : Forall (λ todo, ChangeText (text todo) ∈ acts ++ [a]) (todos (run acts))).
  { eapply Forall_impl; [exact IH|]. intros todo Htodo. apply elem_of_app. by left. }
  rewrite run_snoc. destruct a as [s|now|j|j]; simpl step.
  - exact Hold.
  - destruct (addTodo_cases now (run acts)) as [[_ ->]|[Hnb ->]]; [exact Hold|]. simpl.
    apply Forall_app. split; [exact Hold|]. apply Forall_singleton. simpl.
    destruct (input_was_typed acts) as [Hin|Hin].
    + rewrite Hin in Hnb. by destruct Hnb.
    + apply elem_of_app. by left.
  - simpl. apply Forall_fmap. eapply Forall_impl; [exact Hold|].
    intros todo Htodo. simpl. by rewrite toggleOne_text.
  - apply Forall_forall. intros todo [Hin _]%deleteTodo_elem.
    by apply (proj1 (Forall_forall _ _) Hold).
Qed.
